(** * The Apple Speech stub addon (src/backends/apple/native/stub.cpp)

    The addon is written against node-addon-api: five native callbacks and
    the module initialiser [Init].  The callbacks are embedded as state
    transformers over an N-API environment (a JavaScript heap together with
    the pending-exception slot); the fragment of N-API they use is embedded
    in [Module Napi]. *)

From stdpp Require Import gmap strings list fin_maps.

Local Open Scope string_scope.

(** ** JavaScript values and heap objects *)

(** The native callbacks that [Napi::Function::New] can wrap in this addon. *)
Inductive Callback :=
  | cb_Transcribe
  | cb_IsAvailable
  | cb_SupportsOnDevice
  | cb_GetSupportedLocales
  | cb_RequestAuthorization.

(** A [Napi::Value]: a primitive, or a reference to a heap object. *)
Inductive Value :=
  | VUndefined
  | VNull
  | VBoolean (b : bool)
  | VString (s : string)
  | VObject (a : nat).

(** The error constructors N-API offers (napi_create_error,
    napi_create_type_error, napi_create_range_error). *)
Inductive ErrorKind := ErrorK | TypeErrorK | RangeErrorK.

Inductive PromiseState :=
  | Pending
  | Fulfilled (v : Value)
  | Rejected (reason : Value).

Inductive Obj :=
  | OError (kind : ErrorKind) (message : string)
  | OArray (elems : list Value)
  | OPromise (st : PromiseState)
  | OFunction (cb : Callback)
  | OPlain (props : gmap string Value).

#[global] Instance Callback_eq_dec : EqDecision Callback.
Proof. solve_decision. Defined.
#[global] Instance Value_eq_dec : EqDecision Value.
Proof. solve_decision. Defined.
#[global] Instance ErrorKind_eq_dec : EqDecision ErrorKind.
Proof. solve_decision. Defined.
#[global] Instance PromiseState_eq_dec : EqDecision PromiseState.
Proof. solve_decision. Defined.
#[global] Instance Obj_eq_dec : EqDecision Obj.
Proof. solve_decision. Defined.

(** ** The environment and the monad of native code *)

(** [Napi::Env]: the heap and the exception that is pending, if any. *)
Record Env := mkEnv { heap : gmap nat Obj; pending : option Value }.

(** A native computation either completes with a value and a new
    environment, or an N-API call reports a failing status, which
    node-addon-api turns into a fatal error. *)
Inductive Outcome (A : Type) :=
  | Done (a : A) (env : Env)
  | Fatal.
Arguments Done {A} a env.
Arguments Fatal {A}.

Definition M (A : Type) : Type := Env -> Outcome A.

Definition ret {A} (a : A) : M A := fun env => Done a env.

Definition bind {A B} (m : M A) (k : A -> M B) : M B :=
  fun env =>
    match m env with
    | Done a env' => k a env'
    | Fatal => Fatal
    end.

Declare Scope napi_scope.
Delimit Scope napi_scope with napi.
Notation "x <- m ;; k" := (bind m (fun x => k))
  (at level 100, m at next level, right associativity) : napi_scope.
Notation "m ;; k" := (bind m (fun _ => k))
  (at level 100, right associativity) : napi_scope.
Local Open Scope napi_scope.

(** [Napi::CallbackInfo]: the receiver and the arguments of a call.  Its
    [Env()] is the environment threaded by [M]. *)
Record CallbackInfo := mkInfo { this : Value; args : list Value }.

(** ** The fragment of node-addon-api the stub uses *)

Module Napi.

(** Allocation of a heap object at an address not in use. *)
Definition alloc (o : Obj) : M nat :=
  fun env =>
    let a := fresh (dom (heap env)) in
    Done a (mkEnv (<[a := o]> (heap env)) (pending env)).

(** The C++ [Napi::Error] wrapper around a JavaScript error object. *)
Record Error := mkError { Error_Value : Value }.

(** [Napi::Error::New(env, message)]: napi_create_error. *)
Definition Error_New (message : string) : M Error :=
  a <- alloc (OError ErrorK message);;
  ret (mkError (VObject a)).

(** [Error::ThrowAsJavaScriptException()]: napi_throw.  The exception
    becomes pending; napi_throw refuses (napi_pending_exception) when one
    is pending already. *)
Definition ThrowAsJavaScriptException (e : Error) : M unit :=
  fun env =>
    match pending env with
    | None => Done tt (mkEnv (heap env) (Some (Error_Value e)))
    | Some _ => Fatal
    end.

(** [env.Undefined()]. *)
Definition Undefined : M Value := ret VUndefined.

(** [Napi::Boolean::New(env, b)]. *)
Definition Boolean_New (b : bool) : M Value := ret (VBoolean b).

(** [Napi::Array::New(env, length)]: napi_create_array_with_length; the
    [length] slots of the new array read as undefined. *)
Definition Array_New (length : nat) : M Value :=
  a <- alloc (OArray (replicate length VUndefined));;
  ret (VObject a).

(** [Napi::Promise::Deferred]: the resolver handle of a promise. *)
Record Deferred := mkDeferred { Deferred_Promise : Value }.

(** [Napi::Promise::Deferred::New(env)]: napi_create_promise. *)
Definition Deferred_New : M Deferred :=
  p <- alloc (OPromise Pending);;
  ret (mkDeferred (VObject p)).

(** [deferred.Reject(value)]: napi_reject_deferred settles the promise of
    a deferred that has not been concluded yet. *)
Definition Deferred_Reject (d : Deferred) (reason : Value) : M unit :=
  fun env =>
    match Deferred_Promise d with
    | VObject p =>
        match heap env !! p with
        | Some (OPromise Pending) =>
            Done tt (mkEnv (<[p := OPromise (Rejected reason)]> (heap env))
                           (pending env))
        | _ => Fatal
        end
    | _ => Fatal
    end.

(** [Napi::Function::New(env, cb)]. *)
Definition Function_New (cb : Callback) : M Value :=
  a <- alloc (OFunction cb);;
  ret (VObject a).

(** [Napi::Object::New(env)]. *)
Definition Object_New : M Value :=
  a <- alloc (OPlain ∅);;
  ret (VObject a).

(** [object.Set(key, value)]: napi_set_named_property on a plain object. *)
Definition Object_Set (o : Value) (key : string) (v : Value) : M unit :=
  fun env =>
    match o with
    | VObject a =>
        match heap env !! a with
        | Some (OPlain props) =>
            Done tt (mkEnv (<[a := OPlain (<[key := v]> props)]> (heap env))
                           (pending env))
        | _ => Fatal
        end
    | _ => Fatal
    end.

End Napi.

(** ** stub.cpp *)

Definition Transcribe (info : CallbackInfo) : M Value :=
  e <- Napi.Error_New "Apple Speech is only available on macOS";;
  Napi.ThrowAsJavaScriptException e;;
  Napi.Undefined.

Definition IsAvailable (info : CallbackInfo) : M Value :=
  Napi.Boolean_New false.

Definition SupportsOnDevice (info : CallbackInfo) : M Value :=
  Napi.Boolean_New false.

Definition GetSupportedLocales (info : CallbackInfo) : M Value :=
  Napi.Array_New 0.

Definition RequestAuthorization (info : CallbackInfo) : M Value :=
  deferred <- Napi.Deferred_New;;
  e <- Napi.Error_New "Apple Speech is only available on macOS";;
  Napi.Deferred_Reject deferred (Napi.Error_Value e);;
  ret (Napi.Deferred_Promise deferred).

Definition Init (exports : Value) : M Value :=
  f <- Napi.Function_New cb_Transcribe;;
  Napi.Object_Set exports "transcribe" f;;
  f <- Napi.Function_New cb_IsAvailable;;
  Napi.Object_Set exports "isAvailable" f;;
  f <- Napi.Function_New cb_SupportsOnDevice;;
  Napi.Object_Set exports "supportsOnDevice" f;;
  f <- Napi.Function_New cb_GetSupportedLocales;;
  Napi.Object_Set exports "getSupportedLocales" f;;
  f <- Napi.Function_New cb_RequestAuthorization;;
  Napi.Object_Set exports "requestAuthorization" f;;
  ret exports.

(** [NODE_API_MODULE(apple_speech, Init)]: on load the host creates the
    module's empty exports object and hands it to [Init]. *)
Definition apple_speech : M Value :=
  exports <- Napi.Object_New;;
  Init exports.

(** ** The host runtime calling into the addon *)

(** The native code behind a function object. *)
Definition native (cb : Callback) : CallbackInfo -> M Value :=
  match cb with
  | cb_Transcribe => Transcribe
  | cb_IsAvailable => IsAvailable
  | cb_SupportsOnDevice => SupportsOnDevice
  | cb_GetSupportedLocales => GetSupportedLocales
  | cb_RequestAuthorization => RequestAuthorization
  end.

(** A callback is entered with no exception pending. *)
Definition enter (h : gmap nat Obj) : Env := mkEnv h None.

(** What the JavaScript caller sees of a call. *)
Inductive Completion :=
  | Normal (v : Value)
  | Throw (v : Value).

(** A call from JavaScript: the callback runs in a clean environment; when
    it returns with an exception pending, that exception is thrown to the
    caller and the returned value is dropped. *)
Definition call (cb : Callback) (info : CallbackInfo) (h : gmap nat Obj)
  : option (Completion * gmap nat Obj) :=
  match native cb info (enter h) with
  | Done v env =>
      match pending env with
      | Some e => Some (Throw e, heap env)
      | None => Some (Normal v, heap env)
      end
  | Fatal => None
  end.

(** A sequence of calls, each on the heap the previous one left. *)
Fixpoint calls (trace : list (Callback * CallbackInfo)) (h : gmap nat Obj)
  : option (gmap nat Obj) :=
  match trace with
  | [] => Some h
  | (cb, info) :: rest =>
      match call cb info h with
      | Some (_, h') => calls rest h'
      | None => None
      end
  end.

(** ** What a caller can observe of a value *)

(** The content of a value, read through the heap down to a given depth.
    Addresses do not occur in a view: two values with the same view cannot
    be told apart except by object identity. *)
#[warnings="-register-all"]
Inductive View :=
  | ViewUndefined
  | ViewNull
  | ViewBoolean (b : bool)
  | ViewString (s : string)
  | ViewError (kind : ErrorKind) (message : string)
  | ViewArray (elems : list View)
  | ViewPending
  | ViewFulfilled (v : View)
  | ViewRejected (reason : View)
  | ViewFunction (cb : Callback)
  | ViewPlain (props : list (string * View))
  | ViewOpaque.

Fixpoint view (depth : nat) (h : gmap nat Obj) (v : Value) : View :=
  match v with
  | VUndefined => ViewUndefined
  | VNull => ViewNull
  | VBoolean b => ViewBoolean b
  | VString s => ViewString s
  | VObject a =>
      match depth with
      | O => ViewOpaque
      | S d =>
          match h !! a with
          | Some (OError kind message) => ViewError kind message
          | Some (OArray elems) => ViewArray (map (view d h) elems)
          | Some (OPromise Pending) => ViewPending
          | Some (OPromise (Fulfilled w)) => ViewFulfilled (view d h w)
          | Some (OPromise (Rejected w)) => ViewRejected (view d h w)
          | Some (OFunction cb) => ViewFunction cb
          | Some (OPlain props) =>
              ViewPlain (map (fun kv => (kv.1, view d h kv.2))
                             (map_to_list props))
          | None => ViewOpaque
          end
      end
  end.

Inductive Observed :=
  | Returned (v : View)
  | Thrown (v : View).

Definition observe (depth : nat) (h : gmap nat Obj) (c : Completion)
  : Observed :=
  match c with
  | Normal v => Returned (view depth h v)
  | Throw v => Thrown (view depth h v)
  end.

(** The message of the error object a value refers to. *)
Definition error_message (h : gmap nat Obj) (v : Value) : option string :=
  match v with
  | VObject a =>
      match h !! a with
      | Some (OError _ message) => Some message
      | _ => None
      end
  | _ => None
  end.

(** The failure a completion carries: the thrown exception, or the reason
    of a returned promise that is already rejected. *)
Definition failure (h : gmap nat Obj) (c : Completion) : option Value :=
  match c with
  | Throw e => Some e
  | Normal (VObject p) =>
      match h !! p with
      | Some (OPromise (Rejected reason)) => Some reason
      | _ => None
      end
  | Normal _ => None
  end.

(** The one kind of error the stub builds: a plain JavaScript [Error]
    made by [Napi::Error::New] with the fixed message.  The specification
    calls this kind BackendUnavailable. *)
Definition unavailable (h : gmap nat Obj) (v : Value) : Prop :=
  exists a, v = VObject a /\
    h !! a = Some (OError ErrorK "Apple Speech is only available on macOS").

(** An export: the property [name] of the exports object holds a function
    object that wraps the callback [cb]. *)
Definition entry_point (h : gmap nat Obj) (props : gmap string Value)
    (name : string) (cb : Callback) : Prop :=
  exists f, props !! name = Some (VObject f) /\ h !! f = Some (OFunction cb).

(** The names [Init] sets on the exports object. *)
Definition exported_names : gset string :=
  {[ "transcribe"; "isAvailable"; "supportsOnDevice"; "getSupportedLocales";
     "requestAuthorization" ]}.

(** ** JavaScript code using the loaded module *)




(** ** References between heap objects *)

Definition value_refs (v : Value) : list nat :=
  match v with
  | VObject a => [a]
  | _ => []
  end.

(** The addresses an object holds. *)
Definition obj_refs (o : Obj) : list nat :=
  match o with
  | OError _ _ => []
  | OArray elems => concat (map value_refs elems)
  | OPromise Pending => []
  | OPromise (Fulfilled v) => value_refs v
  | OPromise (Rejected v) => value_refs v
  | OFunction _ => []
  | OPlain props => concat (map (fun kv => value_refs kv.2) (map_to_list props))
  end.

(** A heap is closed when every address held by one of its objects is the
    address of an object of the heap. *)
Definition closed (h : gmap nat Obj) : Prop :=
  map_Forall (fun _ o => Forall (fun b => is_Some (h !! b)) (obj_refs o)) h.

#[global] Instance closed_dec (h : gmap nat Obj) : Decision (closed h).
Proof. unfold closed. apply _. Defined.

(** The objects the five operations build: the error with the fixed
    message, the empty array, and a promise rejected with such an error. *)
Definition stub_object (h : gmap nat Obj) (o : Obj) : Prop :=
  o = OError ErrorK "Apple Speech is only available on macOS" \/
  o = OArray [] \/
  exists e, o = OPromise (Rejected (VObject e)) /\
    h !! e = Some (OError ErrorK "Apple Speech is only available on macOS").

(** The body of [Init] is one registration per export: make the function
    object, set it on the exports object, go on with the rest. *)
Fixpoint register_all {A} (exports : Value)
    (table : list (string * Callback)) (k : M A) : M A :=
  match table with
  | [] => k
  | (name, cb) :: rest =>
      f <- Napi.Function_New cb;;
      Napi.Object_Set exports name f;;
      register_all exports rest k
  end.

(** The names [Init] sets, each with the callback it binds, in order. *)
Definition exports_table : list (string * Callback) :=
  [ ("transcribe", cb_Transcribe);
    ("isAvailable", cb_IsAvailable);
    ("supportsOnDevice", cb_SupportsOnDevice);
    ("getSupportedLocales", cb_GetSupportedLocales);
    ("requestAuthorization", cb_RequestAuthorization) ].

(** The number of heap objects each callback makes: one [New] per object
    in its body. *)
Definition allocations (cb : Callback) : nat :=
  match cb with
  | cb_Transcribe => 1
  | cb_IsAvailable => 0
  | cb_SupportsOnDevice => 0
  | cb_GetSupportedLocales => 1
  | cb_RequestAuthorization => 2
  end.

(** * Properties *)

Section Heap.

Implicit Types (h : gmap nat Obj) (o : Obj) (info : CallbackInfo).

Lemma fresh_unused h : h !! fresh (dom h) = None.
Proof. apply not_elem_of_dom, is_fresh. Qed.

Lemma alloc_frame h o : h ⊆ <[fresh (dom h) := o]> h.
Proof. apply insert_subseteq, fresh_unused. Qed.

Lemma fresh_insert_ne h o :
  fresh (dom (<[fresh (dom h) := o]> h)) <> fresh (dom h).
Proof.
  intros E.
  pose proof (is_fresh (dom (<[fresh (dom h) := o]> h))) as F.
  rewrite E in F. apply F. rewrite dom_insert_L. set_solver.
Qed.

Lemma fresh_insert_unused h a o : h !! fresh (dom (<[a := o]> h)) = None.
Proof.
  apply not_elem_of_dom. intros E.
  apply (is_fresh (dom (<[a := o]> h))).
  rewrite dom_insert_L at 2. apply elem_of_union_r, E.
Qed.

(** Each callback, run from a clean environment, as an explicit result. *)

Lemma Transcribe_enter info h :
  let a := fresh (dom h) in
  Transcribe info (enter h) =
    Done VUndefined
      (mkEnv (<[a := OError ErrorK "Apple Speech is only available on macOS"]> h)
             (Some (VObject a))).
Proof. reflexivity. Qed.

Lemma GetSupportedLocales_run info env :
  let a := fresh (dom (heap env)) in
  GetSupportedLocales info env =
    Done (VObject a) (mkEnv (<[a := OArray []]> (heap env)) (pending env)).
Proof. reflexivity. Qed.

Lemma RequestAuthorization_run info env :
  let p := fresh (dom (heap env)) in
  let e := fresh (dom (<[p := OPromise Pending]> (heap env))) in
  RequestAuthorization info env =
    Done (VObject p)
      (mkEnv (<[p := OPromise (Rejected (VObject e))]>
               (<[e := OError ErrorK "Apple Speech is only available on macOS"]>
                 (<[p := OPromise Pending]> (heap env))))
             (pending env)).
Proof.
  intros p e.
  unfold RequestAuthorization, Napi.Deferred_New, Napi.Error_New, bind, ret,
    Napi.alloc, Napi.Deferred_Reject; simpl.
  fold p. fold e.
  rewrite lookup_insert_ne by apply fresh_insert_ne.
  rewrite lookup_insert_eq. reflexivity.
Qed.

(** The same at the level of a call from JavaScript. *)

Lemma call_Transcribe info h :
  let a := fresh (dom h) in
  call cb_Transcribe info h =
    Some (Throw (VObject a),
          <[a := OError ErrorK "Apple Speech is only available on macOS"]> h).
Proof. reflexivity. Qed.

Lemma call_IsAvailable info h :
  call cb_IsAvailable info h = Some (Normal (VBoolean false), h).
Proof. reflexivity. Qed.

Lemma call_SupportsOnDevice info h :
  call cb_SupportsOnDevice info h = Some (Normal (VBoolean false), h).
Proof. reflexivity. Qed.

Lemma call_GetSupportedLocales info h :
  let a := fresh (dom h) in
  call cb_GetSupportedLocales info h =
    Some (Normal (VObject a), <[a := OArray []]> h).
Proof. reflexivity. Qed.

Lemma call_RequestAuthorization info h :
  let p := fresh (dom h) in
  let e := fresh (dom (<[p := OPromise Pending]> h)) in
  call cb_RequestAuthorization info h =
    Some (Normal (VObject p),
          <[p := OPromise (Rejected (VObject e))]>
            (<[e := OError ErrorK "Apple Speech is only available on macOS"]>
              (<[p := OPromise Pending]> h))).
Proof.
  intros p e. unfold call; simpl native.
  rewrite (RequestAuthorization_run info (enter h)). reflexivity.
Qed.

(** The heap a call to RequestAuthorization leaves: the promise, rejected,
    and its reason, the error. *)
Lemma rejected_heap h :
  let p := fresh (dom h) in
  let e := fresh (dom (<[p := OPromise Pending]> h)) in
  let h' := <[p := OPromise (Rejected (VObject e))]>
              (<[e := OError ErrorK "Apple Speech is only available on macOS"]>
                (<[p := OPromise Pending]> h)) in
  e <> p /\
  h' !! p = Some (OPromise (Rejected (VObject e))) /\
  h' !! e = Some (OError ErrorK "Apple Speech is only available on macOS") /\
  dom h' = dom h ∪ {[ p; e ]}.
Proof.
  intros p e h'. assert (e <> p) as Nep by apply fresh_insert_ne.
  split; [exact Nep|]. split; [apply lookup_insert_eq|]. split.
  - unfold h'. rewrite lookup_insert_ne by congruence. apply lookup_insert_eq.
  - unfold h'. rewrite !dom_insert_L. apply set_eq. intros x.
    rewrite !elem_of_union, !elem_of_singleton. tauto.
Qed.

(** *** Calls never end in a fatal error, and only ever add objects *)

Lemma call_total cb info h : exists c h', call cb info h = Some (c, h').
Proof.
  destruct cb.
  - rewrite call_Transcribe. eauto.
  - rewrite call_IsAvailable. eauto.
  - rewrite call_SupportsOnDevice. eauto.
  - rewrite call_GetSupportedLocales. eauto.
  - rewrite call_RequestAuthorization. eauto.
Qed.

Lemma call_frame cb info h c h' : call cb info h = Some (c, h') -> h ⊆ h'.
Proof.
  destruct cb.
  - rewrite call_Transcribe. intros [= _ <-]. apply alloc_frame.
  - rewrite call_IsAvailable. intros [= _ <-]. reflexivity.
  - rewrite call_SupportsOnDevice. intros [= _ <-]. reflexivity.
  - rewrite call_GetSupportedLocales. intros [= _ <-]. apply alloc_frame.
  - rewrite call_RequestAuthorization. intros [= _ <-].
    apply map_subseteq_spec. intros i x Hi.
    assert (i <> fresh (dom h)) as Np.
    { intros ->. rewrite fresh_unused in Hi. discriminate. }
    assert (i <> fresh (dom (<[fresh (dom h) := OPromise Pending]> h))) as Ne.
    { intros ->. rewrite fresh_insert_unused in Hi. discriminate. }
    rewrite !lookup_insert_ne by congruence. exact Hi.
Qed.

Lemma calls_total trace : forall h, exists h', calls trace h = Some h' /\ h ⊆ h'.
Proof.
  induction trace as [|[cb info] rest IH]; intros h; simpl.
  - exists h. split; reflexivity.
  - destruct (call_total cb info h) as (c & h1 & E). rewrite E.
    destruct (IH h1) as (h' & E' & F). exists h'. split; [exact E'|].
    transitivity h1; [eapply call_frame; exact E | exact F].
Qed.

(** *** What a call shows does not depend on the heap or the arguments *)

Lemma view_rejected h depth :
  let p := fresh (dom h) in
  let e := fresh (dom (<[p := OPromise Pending]> h)) in
  view depth
    (<[p := OPromise (Rejected (VObject e))]>
      (<[e := OError ErrorK "Apple Speech is only available on macOS"]>
        (<[p := OPromise Pending]> h)))
    (VObject p) =
  match depth with
  | 0 => ViewOpaque
  | 1 => ViewRejected ViewOpaque
  | _ => ViewRejected
           (ViewError ErrorK "Apple Speech is only available on macOS")
  end.
Proof.
  intros p e. destruct depth as [|[|depth]]; simpl; [reflexivity| |].
  - rewrite lookup_insert_eq. reflexivity.
  - rewrite lookup_insert_eq.
    rewrite lookup_insert_ne
      by (intros E; symmetry in E; revert E; apply fresh_insert_ne).
    rewrite lookup_insert_eq. reflexivity.
Qed.

Lemma observe_call cb info1 info2 h1 h2 c1 c2 h1' h2' depth :
  call cb info1 h1 = Some (c1, h1') ->
  call cb info2 h2 = Some (c2, h2') ->
  observe depth h1' c1 = observe depth h2' c2.
Proof.
  destruct cb.
  - rewrite !call_Transcribe. intros [= <- <-] [= <- <-].
    destruct depth; simpl; [reflexivity|]. rewrite !lookup_insert_eq. reflexivity.
  - rewrite !call_IsAvailable. intros [= <- <-] [= <- <-].
    destruct depth; reflexivity.
  - rewrite !call_SupportsOnDevice. intros [= <- <-] [= <- <-].
    destruct depth; reflexivity.
  - rewrite !call_GetSupportedLocales. intros [= <- <-] [= <- <-].
    destruct depth; simpl; [reflexivity|]. rewrite !lookup_insert_eq. reflexivity.
  - rewrite !call_RequestAuthorization. intros [= <- <-] [= <- <-].
    unfold observe. rewrite !view_rejected. reflexivity.
Qed.

(** *** Registration of one export *)

Lemma register_step {A} env a props name cb (k : M A) :
  heap env !! a = Some (OPlain props) ->
  exists env',
    (f <- Napi.Function_New cb;; Napi.Object_Set (VObject a) name f;; k) env
      = k env' /\
    pending env' = pending env /\
    heap env' !! a =
      Some (OPlain (<[name := VObject (fresh (dom (heap env)))]> props)) /\
    heap env' !! fresh (dom (heap env)) = Some (OFunction cb) /\
    (forall g cb', heap env !! g = Some (OFunction cb') ->
                   heap env' !! g = Some (OFunction cb')).
Proof.
  intros Ha.
  assert (fresh (dom (heap env)) <> a) as Nf.
  { intros E. rewrite <- E, fresh_unused in Ha. discriminate. }
  exists (mkEnv (<[a := OPlain (<[name := VObject (fresh (dom (heap env)))]> props)]>
                  (<[fresh (dom (heap env)) := OFunction cb]> (heap env)))
                (pending env)).
  split; [|split; [reflexivity|split; [|split]]].
  - unfold bind, Napi.Function_New, Napi.alloc, Napi.Object_Set, bind, ret; simpl.
    rewrite lookup_insert_ne by exact Nf. rewrite Ha. reflexivity.
  - simpl. apply lookup_insert_eq.
  - simpl. rewrite lookup_insert_ne by congruence. apply lookup_insert_eq.
  - intros g cb' Hg. simpl.
    rewrite lookup_insert_ne by (intros ->; congruence).
    rewrite lookup_insert_ne
      by (intros <-; rewrite fresh_unused in Hg; discriminate).
    exact Hg.
Qed.

End Heap.

Lemma Init_run env a props :
  heap env !! a = Some (OPlain props) ->
  exists env' f1 f2 f3 f4 f5,
    Init (VObject a) env = Done (VObject a) env' /\
    pending env' = pending env /\
    heap env' !! a =
      Some (OPlain (<["requestAuthorization" := VObject f5]>
                   (<["getSupportedLocales" := VObject f4]>
                   (<["supportsOnDevice" := VObject f3]>
                   (<["isAvailable" := VObject f2]>
                   (<["transcribe" := VObject f1]> props)))))) /\
    heap env' !! f1 = Some (OFunction cb_Transcribe) /\
    heap env' !! f2 = Some (OFunction cb_IsAvailable) /\
    heap env' !! f3 = Some (OFunction cb_SupportsOnDevice) /\
    heap env' !! f4 = Some (OFunction cb_GetSupportedLocales) /\
    heap env' !! f5 = Some (OFunction cb_RequestAuthorization).
Proof.
  intros H0. unfold Init.
  edestruct (register_step (A:=Value) env) as (env1 & E1 & P1 & H1 & F1 & K1);
    [exact H0|]. rewrite E1; clear E1.
  edestruct (register_step (A:=Value) env1) as (env2 & E2 & P2 & H2 & F2 & K2);
    [exact H1|]. rewrite E2; clear E2.
  edestruct (register_step (A:=Value) env2) as (env3 & E3 & P3 & H3 & F3 & K3);
    [exact H2|]. rewrite E3; clear E3.
  edestruct (register_step (A:=Value) env3) as (env4 & E4 & P4 & H4 & F4 & K4);
    [exact H3|]. rewrite E4; clear E4.
  edestruct (register_step (A:=Value) env4) as (env5 & E5 & P5 & H5 & F5 & K5);
    [exact H4|]. rewrite E5; clear E5.
  exists env5. do 5 eexists.
  split; [reflexivity|]. split; [congruence|]. split; [exact H5|].
  repeat split; eauto.
Qed.

Lemma dom_exports (f1 f2 f3 f4 f5 : nat) (props : gmap string Value) :
  dom (<["requestAuthorization" := VObject f5]>
      (<["getSupportedLocales" := VObject f4]>
      (<["supportsOnDevice" := VObject f3]>
      (<["isAvailable" := VObject f2]>
      (<["transcribe" := VObject f1]> props)))))
  = dom props ∪ exported_names.
Proof.
  rewrite !dom_insert_L. unfold exported_names.
  apply set_eq. intros x. rewrite !elem_of_union, !elem_of_singleton. tauto.
Qed.

(** Loading the module: the exports object the host gets back has the five
    names and nothing else. *)
Lemma apple_speech_exports (env : Env) :
  exists a env' props,
    apple_speech env = Done (VObject a) env' /\
    pending env' = pending env /\
    heap env' !! a = Some (OPlain props) /\
    dom props = exported_names.
Proof.
  unfold apple_speech, Napi.Object_New, bind at 1 2, Napi.alloc, ret.
  set (env0 := mkEnv _ _).
  destruct (Init_run env0 (fresh (dom (heap env))) ∅)
    as (env' & f1 & f2 & f3 & f4 & f5 & E & P & Hp & _).
  { apply lookup_insert_eq. }
  eexists _, env', _. split; [exact E|]. split; [exact P|]. split; [exact Hp|].
  rewrite dom_exports, dom_empty_L. apply (left_id_L ∅ (∪)).
Qed.

(** What each operation shows to a caller that inspects the result two
    levels deep or more. *)
Lemma observe_deep cb info h c h' depth :
  call cb info h = Some (c, h') ->
  observe (S (S depth)) h' c =
    match cb with
    | cb_Transcribe =>
        Thrown (ViewError ErrorK "Apple Speech is only available on macOS")
    | cb_IsAvailable => Returned (ViewBoolean false)
    | cb_SupportsOnDevice => Returned (ViewBoolean false)
    | cb_GetSupportedLocales => Returned (ViewArray [])
    | cb_RequestAuthorization =>
        Returned (ViewRejected
          (ViewError ErrorK "Apple Speech is only available on macOS"))
    end.
Proof.
  destruct cb.
  - rewrite call_Transcribe. intros [= <- <-]. simpl.
    rewrite lookup_insert_eq. reflexivity.
  - rewrite call_IsAvailable. intros [= <- <-]. reflexivity.
  - rewrite call_SupportsOnDevice. intros [= <- <-]. reflexivity.
  - rewrite call_GetSupportedLocales. intros [= <- <-]. simpl.
    rewrite lookup_insert_eq. reflexivity.
  - rewrite call_RequestAuthorization. intros [= <- <-].
    unfold observe. rewrite view_rejected. reflexivity.
Qed.

(** Two calls in a row return distinct objects: the results agree in
    content, not in identity. *)
Lemma successive_promises_differ info h :
  exists p1 h1 p2 h2,
    call cb_RequestAuthorization info h = Some (Normal (VObject p1), h1) /\
    call cb_RequestAuthorization info h1 = Some (Normal (VObject p2), h2) /\
    p1 <> p2.
Proof.
  eexists _, _, _, _. split; [apply call_RequestAuthorization|].
  split; [apply call_RequestAuthorization|].
  intros E. destruct (rejected_heap h) as (_ & Hp & _).
  match type of Hp with ?h1 !! _ = _ => pose proof (fresh_unused h1) as U end.
  rewrite <- E in U. congruence.
Qed.

(** The scenario of the specification: isAvailable(), then
    transcribe(anyInput). *)
Lemma isAvailable_then_transcribe info1 info2 h :
  exists h1 e h2,
    call cb_IsAvailable info1 h = Some (Normal (VBoolean false), h1) /\
    call cb_Transcribe info2 h1 = Some (Throw e, h2) /\
    error_message h2 e = Some "Apple Speech is only available on macOS".
Proof.
  eexists _, _, _. split; [apply call_IsAvailable|].
  split; [apply call_Transcribe|].
  unfold error_message. rewrite lookup_insert_eq. reflexivity.
Qed.

(** ** The claims of the specification *)

(** C1: for every receiver and argument list, on every heap, a call to
    Transcribe ends by throwing an error object whose message is exactly
    "Apple Speech is only available on macOS".  Nothing is validated or
    processed first: the heap the call leaves is the heap it found plus that
    one fresh error object, and neither the exception nor the heap depends
    on the arguments. *)
Theorem Transcribe_always_throws (info : CallbackInfo) (h : gmap nat Obj) :
  exists a,
    call cb_Transcribe info h =
      Some (Throw (VObject a),
            <[a := OError ErrorK "Apple Speech is only available on macOS"]> h) /\
    h !! a = None /\
    error_message
      (<[a := OError ErrorK "Apple Speech is only available on macOS"]> h)
      (VObject a)
    = Some "Apple Speech is only available on macOS".
Proof.
  exists (fresh (dom h)). split; [apply call_Transcribe|].
  split; [apply fresh_unused|].
  unfold error_message. rewrite lookup_insert_eq. reflexivity.
Qed.

(** C2: every call to RequestAuthorization returns, in one step and with
    no exception pending, a promise that is already in the rejected state
    in the environment the call hands back; the rejection value is an error
    object whose message is exactly "Apple Speech is only available on
    macOS".  The call leaves nothing behind but these two fresh objects. *)
Theorem RequestAuthorization_already_rejected
    (info : CallbackInfo) (h : gmap nat Obj) :
  exists p e env',
    RequestAuthorization info (enter h) = Done (VObject p) env' /\
    pending env' = None /\
    heap env' !! p = Some (OPromise (Rejected (VObject e))) /\
    heap env' !! e =
      Some (OError ErrorK "Apple Speech is only available on macOS") /\
    error_message (heap env') (VObject e) =
      Some "Apple Speech is only available on macOS" /\
    call cb_RequestAuthorization info h = Some (Normal (VObject p), heap env') /\
    h !! p = None /\ h !! e = None /\ p <> e /\
    dom (heap env') = dom h ∪ {[ p; e ]} /\
    h ⊆ heap env'.
Proof.
  pose proof (call_RequestAuthorization info h) as C.
  pose proof (RequestAuthorization_run info (enter h)) as R.
  destruct (rejected_heap h) as (Nep & Hp & He & D). simpl in R, C.
  set (p := fresh (dom h)) in *.
  set (e := fresh (dom (<[p := OPromise Pending]> h))) in *.
  eexists p, e, _. split; [exact R|].
  split; [reflexivity|]. split; [exact Hp|]. split; [exact He|].
  split; [unfold error_message; simpl heap; rewrite He; reflexivity|].
  split; [exact C|]. split; [apply fresh_unused|].
  split; [apply fresh_insert_unused|]. split; [congruence|].
  split; [exact D|]. eapply call_frame; exact C.
Qed.

(** C3: whatever operation is called, the failure it produces, if any, is
    an error of the one kind the stub builds (the plain error of
    [Napi::Error::New], which the specification names BackendUnavailable)
    with the fixed message.  Only Transcribe throws; RequestAuthorization
    returns normally and hands the error over as the reason of a rejected
    promise; the other three operations produce no failure. *)
Theorem failures_are_unavailable
    (cb : Callback) (info : CallbackInfo) (h : gmap nat Obj) :
  exists c h',
    call cb info h = Some (c, h') /\
    (forall e, failure h' c = Some e -> unavailable h' e) /\
    (is_Some (failure h' c) <->
       cb = cb_Transcribe \/ cb = cb_RequestAuthorization) /\
    ((exists e, c = Throw e) <-> cb = cb_Transcribe) /\
    (cb = cb_RequestAuthorization ->
       exists p e, c = Normal (VObject p) /\
                   h' !! p = Some (OPromise (Rejected e)) /\
                   unavailable h' e).
Proof.
  destruct cb.
  - eexists _, _. split; [apply call_Transcribe|]. simpl. repeat split.
    + intros e [= <-]. eexists. split; [reflexivity|apply lookup_insert_eq].
    + eauto.
    + eauto.
    + eauto.
    + discriminate.
  - eexists _, _. split; [apply call_IsAvailable|]. simpl. repeat split;
      try discriminate; try (intros [? ?]; discriminate);
      intros [|]; discriminate.
  - eexists _, _. split; [apply call_SupportsOnDevice|]. simpl. repeat split;
      try discriminate; try (intros [? ?]; discriminate);
      intros [|]; discriminate.
  - eexists _, _. split; [apply call_GetSupportedLocales|]. simpl.
    rewrite lookup_insert_eq. repeat split;
      try discriminate; try (intros [? ?]; discriminate);
      intros [|]; discriminate.
  - destruct (rejected_heap h) as (_ & Hp & He & _).
    eexists _, _. split; [apply call_RequestAuthorization|].
    simpl. rewrite Hp. repeat split.
    + intros ? [= <-]. eexists. split; [reflexivity|exact He].
    + eauto.
    + eauto.
    + intros [? ?]; discriminate.
    + discriminate.
    + intros _. eexists _, (VObject _). repeat split; [exact Hp|].
      eexists. split; [reflexivity|exact He].
Qed.

(** C4: IsAvailable returns the boolean false from every environment and
    leaves the environment exactly as it found it (so it has no side effect
    and raises nothing); called from JavaScript after any sequence of
    earlier calls to the five operations, it returns false and leaves the
    heap unchanged. *)
Theorem IsAvailable_always_false (info : CallbackInfo) :
  (forall env, IsAvailable info env = Done (VBoolean false) env) /\
  (forall trace h, exists h',
      calls trace h = Some h' /\
      call cb_IsAvailable info h' = Some (Normal (VBoolean false), h')).
Proof.
  split; [reflexivity|]. intros trace h.
  destruct (calls_total trace h) as (h' & E & _).
  exists h'. split; [exact E|apply call_IsAvailable].
Qed.

(** C5: SupportsOnDevice returns the boolean false from every environment,
    leaving it unchanged; a call from JavaScript completes normally with
    false. *)
Theorem SupportsOnDevice_always_false (info : CallbackInfo) :
  (forall env, SupportsOnDevice info env = Done (VBoolean false) env) /\
  (forall h, call cb_SupportsOnDevice info h = Some (Normal (VBoolean false), h)).
Proof. split; reflexivity. Qed.

(** C6: GetSupportedLocales returns, from every environment and without
    touching the pending-exception slot, a fresh array object whose element
    sequence has length 0; a call from JavaScript completes normally with
    that array. *)
Theorem GetSupportedLocales_always_empty (info : CallbackInfo) (env : Env) :
  exists a env' elems,
    GetSupportedLocales info env = Done (VObject a) env' /\
    pending env' = pending env /\
    heap env !! a = None /\
    heap env' = <[a := OArray elems]> (heap env) /\
    length elems = 0 /\
    call cb_GetSupportedLocales info (heap env) =
      Some (Normal (VObject a), heap env').
Proof.
  exists (fresh (dom (heap env))). eexists _, [].
  split; [apply GetSupportedLocales_run|]. simpl.
  repeat split. apply fresh_unused.
Qed.

(** C7: for each of the five operations and every input, two calls in a
    row complete and show the same thing to the caller, at every depth of
    inspection; more generally, what a call shows after any sequence of
    earlier calls is what it shows when made first.  No call changes an
    object that existed before it: each heap is contained in the next. *)
Theorem calls_are_repeatable
    (cb : Callback) (info : CallbackInfo) (h : gmap nat Obj) :
  (exists c1 h1 c2 h2,
      call cb info h = Some (c1, h1) /\
      call cb info h1 = Some (c2, h2) /\
      (forall depth, observe depth h1 c1 = observe depth h2 c2) /\
      h ⊆ h1 /\ h1 ⊆ h2) /\
  (forall trace, exists c0 h0 h' c h'',
      call cb info h = Some (c0, h0) /\
      calls trace h = Some h' /\
      call cb info h' = Some (c, h'') /\
      (forall depth, observe depth h0 c0 = observe depth h'' c) /\
      h ⊆ h' /\ h' ⊆ h'').
Proof.
  destruct (call_total cb info h) as (c1 & h1 & E1). split.
  - destruct (call_total cb info h1) as (c2 & h2 & E2).
    exists c1, h1, c2, h2. repeat split; eauto using call_frame.
    intros depth. eapply observe_call; eassumption.
  - intros trace. destruct (calls_total trace h) as (h' & T & F).
    destruct (call_total cb info h') as (c & h'' & E).
    exists c1, h1, h', c, h''. repeat split; eauto using call_frame.
    intros depth. eapply observe_call; eassumption.
Qed.

(** C8: run on an exports object, [Init] returns that same object after
    setting on it exactly the five names transcribe, isAvailable,
    supportsOnDevice, getSupportedLocales and requestAuthorization, each
    bound to a function object that wraps the callback of that name; every
    other property of the object is left as it was, so on the empty object
    the host hands over the exports are these five and no others. *)
Theorem Init_registers_five
    (env : Env) (a : nat) (props : gmap string Value) :
  heap env !! a = Some (OPlain props) ->
  exists env' props',
    Init (VObject a) env = Done (VObject a) env' /\
    pending env' = pending env /\
    heap env' !! a = Some (OPlain props') /\
    dom props' = dom props ∪ exported_names /\
    (props = ∅ -> dom props' = exported_names /\ size props' = 5) /\
    (forall k, k ∉ exported_names -> props' !! k = props !! k) /\
    entry_point (heap env') props' "transcribe" cb_Transcribe /\
    entry_point (heap env') props' "isAvailable" cb_IsAvailable /\
    entry_point (heap env') props' "supportsOnDevice" cb_SupportsOnDevice /\
    entry_point (heap env') props' "getSupportedLocales" cb_GetSupportedLocales /\
    entry_point (heap env') props' "requestAuthorization" cb_RequestAuthorization.
Proof.
  intros Ha.
  destruct (Init_run env a props Ha)
    as (env' & f1 & f2 & f3 & f4 & f5 & E & P & Hp & F1 & F2 & F3 & F4 & F5).
  eexists env', _. split; [exact E|]. split; [exact P|]. split; [exact Hp|].
  pose proof (dom_exports f1 f2 f3 f4 f5) as D.
  split; [apply D|]. split; [|split].
  - intros ->. split.
    + rewrite D, dom_empty_L. apply (left_id_L ∅ (∪)).
    + rewrite <- size_dom, D, dom_empty_L, (left_id_L ∅ (∪)). reflexivity.
  - intros k Hk. unfold exported_names in Hk.
    rewrite !not_elem_of_union, !not_elem_of_singleton in Hk.
    destruct Hk as ((((N1 & N2) & N3) & N4) & N5).
    rewrite !lookup_insert_ne by congruence. reflexivity.
  - repeat split.
    + exists f1. split; [|exact F1]. rewrite !lookup_insert_ne by discriminate.
      apply lookup_insert_eq.
    + exists f2. split; [|exact F2]. rewrite !lookup_insert_ne by discriminate.
      apply lookup_insert_eq.
    + exists f3. split; [|exact F3]. rewrite !lookup_insert_ne by discriminate.
      apply lookup_insert_eq.
    + exists f4. split; [|exact F4]. rewrite !lookup_insert_ne by discriminate.
      apply lookup_insert_eq.
    + exists f5. split; [|exact F5]. apply lookup_insert_eq.
Qed.

Lemma Init_registers_five_witness :
  exists env' props',
    Init (VObject 0) (enter {[ 0 := OPlain ∅ ]}) = Done (VObject 0) env' /\
    pending env' = None /\
    heap env' !! 0 = Some (OPlain props') /\
    dom props' = dom (∅ : gmap string Value) ∪ exported_names /\
    ((∅ : gmap string Value) = ∅ -> dom props' = exported_names /\ size props' = 5) /\
    (forall k, k ∉ exported_names -> props' !! k = (∅ : gmap string Value) !! k) /\
    entry_point (heap env') props' "transcribe" cb_Transcribe /\
    entry_point (heap env') props' "isAvailable" cb_IsAvailable /\
    entry_point (heap env') props' "supportsOnDevice" cb_SupportsOnDevice /\
    entry_point (heap env') props' "getSupportedLocales" cb_GetSupportedLocales /\
    entry_point (heap env') props' "requestAuthorization" cb_RequestAuthorization.
Proof.
  apply (Init_registers_five (enter {[ 0 := OPlain ∅ ]}) 0 ∅). reflexivity.
Defined.

(** C9: the outcome of Transcribe does not depend on its argument.  For any
    two inputs the native function is the same state transformer, a call on
    the same heap gives the same completion and the same heap, and on any
    two heaps the two calls show the caller the same thing: a thrown error
    with the fixed message. *)
Theorem Transcribe_ignores_input (info1 info2 : CallbackInfo) :
  (forall env, Transcribe info1 env = Transcribe info2 env) /\
  (forall h, call cb_Transcribe info1 h = call cb_Transcribe info2 h) /\
  (forall h1 h2, exists e1 h1' e2 h2',
      call cb_Transcribe info1 h1 = Some (Throw e1, h1') /\
      call cb_Transcribe info2 h2 = Some (Throw e2, h2') /\
      error_message h1' e1 = Some "Apple Speech is only available on macOS" /\
      error_message h2' e2 = Some "Apple Speech is only available on macOS" /\
      forall depth,
        observe depth h1' (Throw e1) = observe depth h2' (Throw e2)).
Proof.
  split; [reflexivity|]. split; [reflexivity|]. intros h1 h2.
  eexists _, _, _, _.
  split; [apply call_Transcribe|]. split; [apply call_Transcribe|].
  unfold error_message. rewrite !lookup_insert_eq.
  split; [reflexivity|]. split; [reflexivity|].
  intros depth.
  eapply (observe_call cb_Transcribe info1 info2); apply call_Transcribe.
Qed.

(** C10: entered with no exception pending, as the host enters it,
    Transcribe returns the undefined value and leaves an exception pending:
    the error object it has just built. *)
Theorem Transcribe_returns_undefined (info : CallbackInfo) (env : Env) :
  pending env = None ->
  exists a env',
    Transcribe info env = Done VUndefined env' /\
    pending env' = Some (VObject a) /\
    heap env' !! a =
      Some (OError ErrorK "Apple Speech is only available on macOS").
Proof.
  intros P. destruct env as [h pe]. simpl in P. subst pe.
  exists (fresh (dom h)). eexists. split; [apply Transcribe_enter|].
  split; [reflexivity|]. apply lookup_insert_eq.
Qed.

Lemma Transcribe_returns_undefined_witness :
  pending (enter ∅) = None /\
  exists a env',
    Transcribe (mkInfo VUndefined [VString "speech.wav"]) (enter ∅)
      = Done VUndefined env' /\
    pending env' = Some (VObject a) /\
    heap env' !! a =
      Some (OError ErrorK "Apple Speech is only available on macOS").
Proof.
  split; [reflexivity|].
  apply (Transcribe_returns_undefined _ (enter ∅)). reflexivity.
Defined.

(** ** Further properties of the operations *)

Section Objects.

Implicit Types (h : gmap nat Obj) (o : Obj) (info : CallbackInfo).

Lemma stub_object_weaken h h' o : h ⊆ h' -> stub_object h o -> stub_object h' o.
Proof.
  intros F [E|[E|(e & E & He)]]; [left; exact E|right; left; exact E|].
  right; right. exists e. split; [exact E|]. eapply lookup_weaken; eassumption.
Qed.

Lemma call_builds_stub_objects cb info h c h' a o :
  call cb info h = Some (c, h') ->
  h' !! a = Some o -> h !! a = None -> stub_object h' o.
Proof.
  destruct cb.
  - rewrite call_Transcribe. intros [= _ <-] Ho Hn.
    destruct (decide (fresh (dom h) = a)) as [<-|Na].
    + rewrite lookup_insert_eq in Ho. injection Ho as <-. left. reflexivity.
    + rewrite lookup_insert_ne in Ho by exact Na. congruence.
  - rewrite call_IsAvailable. intros [= _ <-] Ho Hn. congruence.
  - rewrite call_SupportsOnDevice. intros [= _ <-] Ho Hn. congruence.
  - rewrite call_GetSupportedLocales. intros [= _ <-] Ho Hn.
    destruct (decide (fresh (dom h) = a)) as [<-|Na].
    + rewrite lookup_insert_eq in Ho. injection Ho as <-. right; left. reflexivity.
    + rewrite lookup_insert_ne in Ho by exact Na. congruence.
  - rewrite call_RequestAuthorization. intros [= _ <-] Ho Hn.
    destruct (rejected_heap h) as (Nep & Hp & He & _).
    destruct (decide (fresh (dom h) = a)) as [<-|Np].
    + rewrite Hp in Ho. injection Ho as <-. right; right.
      eexists. split; [reflexivity|exact He].
    + destruct (decide
        (fresh (dom (<[fresh (dom h) := OPromise Pending]> h)) = a)) as [<-|Ne].
      * rewrite He in Ho. injection Ho as <-. left. reflexivity.
      * rewrite !lookup_insert_ne in Ho by assumption. congruence.
Qed.

Lemma closed_insert h a o :
  closed h ->
  Forall (fun b => is_Some (<[a := o]> h !! b)) (obj_refs o) ->
  closed (<[a := o]> h).
Proof.
  unfold closed. intros C F. apply map_Forall_insert_2; [exact F|].
  eapply map_Forall_impl; [exact C|]. intros i x Hx. simpl in Hx.
  eapply Forall_impl; [exact Hx|]. intros b [y Hb]. simpl.
  destruct (decide (a = b)) as [->|Nab].
  - rewrite lookup_insert_eq. eauto.
  - rewrite lookup_insert_ne by exact Nab. eauto.
Qed.

Lemma call_keeps_closed cb info h c h' :
  call cb info h = Some (c, h') -> closed h -> closed h'.
Proof.
  destruct cb.
  - rewrite call_Transcribe. intros [= _ <-] C.
    apply closed_insert; [exact C|constructor].
  - rewrite call_IsAvailable. intros [= _ <-] C. exact C.
  - rewrite call_SupportsOnDevice. intros [= _ <-] C. exact C.
  - rewrite call_GetSupportedLocales. intros [= _ <-] C.
    apply closed_insert; [exact C|constructor].
  - rewrite call_RequestAuthorization. intros [= _ <-] C.
    destruct (rejected_heap h) as (_ & _ & He & _).
    apply closed_insert.
    + apply closed_insert; [|constructor].
      apply closed_insert; [exact C|constructor].
    + simpl. constructor; [|constructor]. rewrite He. eauto.
Qed.

Lemma call_result_lives cb info h c h' b :
  call cb info h = Some (c, h') ->
  c = Normal (VObject b) \/ c = Throw (VObject b) -> is_Some (h' !! b).
Proof.
  destruct cb.
  - rewrite call_Transcribe. intros [= <- <-] [E|E]; [discriminate|].
    injection E as <-. rewrite lookup_insert_eq. eauto.
  - rewrite call_IsAvailable. intros [= <- <-] [E|E]; discriminate.
  - rewrite call_SupportsOnDevice. intros [= <- <-] [E|E]; discriminate.
  - rewrite call_GetSupportedLocales. intros [= <- <-] [E|E]; [|discriminate].
    injection E as <-. rewrite lookup_insert_eq. eauto.
  - rewrite call_RequestAuthorization. intros [= <- <-] [E|E]; [|discriminate].
    injection E as <-. rewrite lookup_insert_eq. eauto.
Qed.

End Objects.

(** X1: whatever sequence of calls is made, every object the heap holds
    afterwards that was not there before is the error with the fixed
    message, an empty array, or a promise already rejected with such an
    error.  The operations never leave a pending or a fulfilled promise,
    an error of another kind or message, or a non-empty array. *)
Theorem calls_build_only_stub_objects
    (trace : list (Callback * CallbackInfo)) (h : gmap nat Obj) :
  exists h',
    calls trace h = Some h' /\
    forall a o, h' !! a = Some o -> h !! a = None -> stub_object h' o.
Proof.
  revert h. induction trace as [|[cb info] rest IH]; intros h; simpl.
  - exists h. split; [reflexivity|]. intros a o Ho Hn. congruence.
  - destruct (call_total cb info h) as (c & h1 & E). rewrite E.
    destruct (IH h1) as (h' & T & New). exists h'. split; [exact T|].
    intros a o Ho Hn.
    destruct (h1 !! a) as [o1|] eqn:H1; [|eapply New; eassumption].
    destruct (calls_total rest h1) as (h'' & T' & F).
    rewrite T in T'. injection T' as <-.
    pose proof (lookup_weaken _ _ _ _ H1 F) as Ho'.
    rewrite Ho in Ho'. injection Ho' as ->.
    eapply stub_object_weaken; [exact F|].
    eapply call_builds_stub_objects; eassumption.
Qed.

(** X2: the operations keep the heap closed.  Started on a heap in which
    no object holds a dangling address, any sequence of calls followed by
    one more call leaves such a heap again, and the object that last call
    returns or throws is an object of that heap. *)
Theorem calls_keep_heap_closed
    (trace : list (Callback * CallbackInfo)) (cb : Callback)
    (info : CallbackInfo) (h : gmap nat Obj) :
  closed h ->
  exists h1 c h2,
    calls trace h = Some h1 /\
    call cb info h1 = Some (c, h2) /\
    closed h1 /\ closed h2 /\
    forall b, c = Normal (VObject b) \/ c = Throw (VObject b) ->
              is_Some (h2 !! b).
Proof.
  intros C.
  assert (exists h1, calls trace h = Some h1 /\ closed h1) as (h1 & T & C1).
  { revert h C. induction trace as [|[cb' info'] rest IH]; intros h C; simpl.
    - exists h. split; [reflexivity|exact C].
    - destruct (call_total cb' info' h) as (c & h0 & E). rewrite E.
      apply IH. eapply call_keeps_closed; eassumption. }
  destruct (call_total cb info h1) as (c & h2 & E).
  exists h1, c, h2. split; [exact T|]. split; [exact E|].
  split; [exact C1|]. split; [eapply call_keeps_closed; eassumption|].
  intros b Hb. eapply call_result_lives; eassumption.
Qed.

Lemma calls_keep_heap_closed_witness :
  closed {[ 0 := OArray [VObject 1]; 1 := OPromise (Rejected (VObject 0)) ]} /\
  exists h1 c h2,
    calls [(cb_Transcribe, mkInfo VUndefined [VObject 0]);
           (cb_GetSupportedLocales, mkInfo VUndefined [])]
      {[ 0 := OArray [VObject 1]; 1 := OPromise (Rejected (VObject 0)) ]}
      = Some h1 /\
    call cb_RequestAuthorization (mkInfo VUndefined []) h1 = Some (c, h2) /\
    closed h1 /\ closed h2 /\
    forall b, c = Normal (VObject b) \/ c = Throw (VObject b) ->
              is_Some (h2 !! b).
Proof.
  assert (closed {[ 0 := OArray [VObject 1];
                    1 := OPromise (Rejected (VObject 0)) ]}) as C.
  { apply (bool_decide_unpack _). vm_compute. exact I. }
  split; [exact C|]. apply calls_keep_heap_closed. exact C.
Defined.

(** X3: a result stays as it was.  What the caller can see of the value a
    call returned or threw is the same after any further sequence of calls
    as it was when the call returned. *)
Theorem later_calls_keep_results
    (cb : Callback) (info : CallbackInfo) (h : gmap nat Obj)
    (trace : list (Callback * CallbackInfo)) :
  exists c h1 h2,
    call cb info h = Some (c, h1) /\
    calls trace h1 = Some h2 /\
    forall depth, observe depth h2 c = observe depth h1 c.
Proof.
  destruct (call_total cb info h) as (c & h1 & E).
  destruct (calls_total trace h1) as (h2 & T & F).
  exists c, h1, h2. split; [exact E|]. split; [exact T|].
  intros depth. revert E. destruct cb.
  - rewrite call_Transcribe. intros [= <- <-].
    destruct depth; simpl; [reflexivity|].
    rewrite (lookup_weaken _ _ _ _ (lookup_insert_eq _ _ _) F).
    rewrite lookup_insert_eq. reflexivity.
  - rewrite call_IsAvailable. intros [= <- <-]. destruct depth; reflexivity.
  - rewrite call_SupportsOnDevice. intros [= <- <-]. destruct depth; reflexivity.
  - rewrite call_GetSupportedLocales. intros [= <- <-].
    destruct depth; simpl; [reflexivity|].
    rewrite (lookup_weaken _ _ _ _ (lookup_insert_eq _ _ _) F).
    rewrite lookup_insert_eq. reflexivity.
  - rewrite call_RequestAuthorization. intros [= <- <-].
    destruct (rejected_heap h) as (_ & Hp & He & _).
    unfold observe. rewrite view_rejected.
    destruct depth as [|[|depth]]; simpl; [reflexivity| |].
    + rewrite (lookup_weaken _ _ _ _ Hp F). reflexivity.
    + rewrite (lookup_weaken _ _ _ _ Hp F). simpl.
      rewrite (lookup_weaken _ _ _ _ He F). reflexivity.
Qed.

(** ** Further properties of the module initialiser *)

Section Registration.

Implicit Types (h : gmap nat Obj) (o : Obj) (props : gmap string Value).

Lemma Init_register_all exports :
  Init exports = register_all exports exports_table (ret exports).
Proof. reflexivity. Qed.

(** The addresses a plain object holds are those of its property values. *)
Lemma plain_refs props b :
  b ∈ obj_refs (OPlain props) <-> exists k, props !! k = Some (VObject b).
Proof.
  simpl. rewrite list_elem_of_In, in_concat. split.
  - intros (l & Hl & Hb). apply in_map_iff in Hl as ([k v] & <- & Hkv).
    apply list_elem_of_In, elem_of_map_to_list in Hkv. simpl in Hb.
    destruct v; simpl in Hb; try contradiction.
    destruct Hb as [->|[]]. exists k. exact Hkv.
  - intros (k & Hk). exists [b]. split; [|left; reflexivity].
    apply in_map_iff. exists (k, VObject b). split; [reflexivity|].
    apply list_elem_of_In, elem_of_map_to_list. exact Hk.
Qed.

(** One registration keeps the heap closed. *)
Lemma register_closed h a props name cb :
  h !! a = Some (OPlain props) -> closed h ->
  closed (<[a := OPlain (<[name := VObject (fresh (dom h))]> props)]>
            (<[fresh (dom h) := OFunction cb]> h)).
Proof.
  intros Ha C.
  assert (fresh (dom h) <> a) as Nf.
  { intros E. rewrite <- E, fresh_unused in Ha. discriminate. }
  apply closed_insert; [apply closed_insert; [exact C|constructor]|].
  apply Forall_forall. intros b Hb. apply plain_refs in Hb as (k & Hk).
  destruct (decide (a = b)) as [<-|Nab]; [rewrite lookup_insert_eq; eauto|].
  rewrite lookup_insert_ne by exact Nab.
  destruct (decide (name = k)) as [<-|Nk].
  - rewrite lookup_insert_eq in Hk. injection Hk as <-.
    rewrite lookup_insert_eq. eauto.
  - rewrite lookup_insert_ne in Hk by exact Nk.
    destruct (decide (fresh (dom h) = b)) as [<-|Nfb];
      [rewrite lookup_insert_eq; eauto|].
    rewrite lookup_insert_ne by exact Nfb.
    pose proof (map_Forall_lookup_1 _ _ _ _ C Ha) as R. simpl in R.
    rewrite Forall_forall in R. apply R, plain_refs. eauto.
Qed.

(** What a sequence of registrations does to the heap. *)
Lemma register_all_run {A} a table (k : M A) :
  forall env props,
    heap env !! a = Some (OPlain props) ->
    exists env' fs,
      register_all (VObject a) table k env = k env' /\
      pending env' = pending env /\
      NoDup fs /\
      Forall2 (fun f nc => heap env !! f = None /\
                           heap env' !! f = Some (OFunction nc.2)) fs table /\
      is_Some (heap env' !! a) /\
      dom (heap env') = dom (heap env) ∪ list_to_set fs /\
      (forall b, b <> a -> b ∉ fs -> heap env' !! b = heap env !! b) /\
      (closed (heap env) -> closed (heap env')).
Proof.
  induction table as [|[name cb] rest IH]; intros env props Ha; simpl.
  - exists env, []. split; [reflexivity|]. split; [reflexivity|].
    split; [constructor|]. split; [constructor|]. split; [eauto|].
    split; [|split; [reflexivity|exact id]].
    simpl. symmetry. apply (right_id_L ∅ (∪)).
  - set (f := fresh (dom (heap env))).
    assert (heap env !! f = None) as Hf by apply fresh_unused.
    assert (f <> a) as Nf by (intros E; rewrite E in Hf; congruence).
    set (h1 := <[a := OPlain (<[name := VObject f]> props)]>
                 (<[f := OFunction cb]> (heap env))).
    assert (h1 !! a = Some (OPlain (<[name := VObject f]> props))) as Ha1
      by apply lookup_insert_eq.
    assert (h1 !! f = Some (OFunction cb)) as Hf1.
    { unfold h1. rewrite lookup_insert_ne by congruence. apply lookup_insert_eq. }
    destruct (IH (mkEnv h1 (pending env)) _ Ha1)
      as (env' & fs & E & P & ND & F2 & Sa & D & Fr & Cl).
    simpl in D, Fr, Cl, F2, P.
    assert (f ∉ fs) as Nin.
    { intros Hin. apply list_elem_of_lookup in Hin as (i & Hi).
      destruct (Forall2_lookup_l _ _ _ _ _ F2 Hi) as (nc & _ & Hn & _).
      congruence. }
    exists env', (f :: fs). split; [|split; [exact P|]].
    { unfold bind at 1 2, Napi.Function_New, Napi.alloc, Napi.Object_Set,
        bind, ret; simpl. fold f.
      rewrite lookup_insert_ne by exact Nf. rewrite Ha. exact E. }
    split; [apply NoDup_cons; split; assumption|]. split; [|split; [exact Sa|]].
    { constructor.
      - split; [exact Hf|]. simpl. rewrite (Fr f Nf Nin). exact Hf1.
      - eapply Forall2_impl; [exact F2|]. intros g nc [Hg Hg']. split; [|exact Hg'].
        unfold h1 in Hg.
        destruct (decide (a = g)) as [<-|Nag];
          [rewrite lookup_insert_eq in Hg; discriminate|].
        rewrite lookup_insert_ne in Hg by exact Nag.
        destruct (decide (f = g)) as [<-|Nfg];
          [rewrite lookup_insert_eq in Hg; discriminate|].
        rewrite lookup_insert_ne in Hg by exact Nfg. exact Hg. }
    split; [|split].
    + rewrite D. unfold h1. rewrite !dom_insert_L, list_to_set_cons.
      assert (a ∈ dom (heap env)) as Da by (apply elem_of_dom; eauto).
      apply set_eq. intros x.
      rewrite !elem_of_union, !elem_of_singleton.
      split; [intros [[->|[->|?]]|?]; tauto|tauto].
    + intros b Nb Hb. apply not_elem_of_cons in Hb as [Nbf Hb].
      rewrite (Fr b Nb Hb). unfold h1. rewrite !lookup_insert_ne by congruence.
      reflexivity.
    + intros C. apply Cl. apply register_closed; assumption.
Qed.

End Registration.

(** X4: on a plain exports object [Init] allocates exactly five objects,
    pairwise distinct and all at addresses that were free: the function
    objects of the five callbacks, in the order of registration.  Apart
    from the exports object itself no object that existed before is
    changed, and a closed heap stays closed. *)
Theorem Init_adds_five_functions
    (env : Env) (a : nat) (props : gmap string Value) :
  heap env !! a = Some (OPlain props) ->
  exists env' fs,
    Init (VObject a) env = Done (VObject a) env' /\
    NoDup fs /\
    Forall2 (fun f nc => heap env !! f = None /\
                         heap env' !! f = Some (OFunction nc.2))
            fs exports_table /\
    dom (heap env') = dom (heap env) ∪ list_to_set fs /\
    (forall b, b <> a -> b ∉ fs -> heap env' !! b = heap env !! b) /\
    (closed (heap env) -> closed (heap env')).
Proof.
  intros Ha. rewrite Init_register_all.
  destruct (register_all_run a exports_table (ret (VObject a)) env props Ha)
    as (env' & fs & E & _ & ND & F2 & _ & D & Fr & Cl).
  exists env', fs. split; [exact E|]. repeat split; assumption.
Qed.

Lemma Init_adds_five_functions_witness :
  heap (enter {[ 0 := OPlain {[ "version" := VString "1" ]};
                 1 := OArray [VObject 0] ]}) !! 0
    = Some (OPlain {[ "version" := VString "1" ]}) /\
  exists env' fs,
    Init (VObject 0)
      (enter {[ 0 := OPlain {[ "version" := VString "1" ]};
                1 := OArray [VObject 0] ]}) = Done (VObject 0) env' /\
    NoDup fs /\
    Forall2 (fun f nc =>
               heap (enter {[ 0 := OPlain {[ "version" := VString "1" ]};
                              1 := OArray [VObject 0] ]}) !! f = None /\
               heap env' !! f = Some (OFunction nc.2))
            fs exports_table /\
    dom (heap env') =
      dom (heap (enter {[ 0 := OPlain {[ "version" := VString "1" ]};
                          1 := OArray [VObject 0] ]})) ∪ list_to_set fs /\
    (forall b, b <> 0 -> b ∉ fs ->
       heap env' !! b =
       heap (enter {[ 0 := OPlain {[ "version" := VString "1" ]};
                      1 := OArray [VObject 0] ]}) !! b) /\
    (closed (heap (enter {[ 0 := OPlain {[ "version" := VString "1" ]};
                            1 := OArray [VObject 0] ]})) ->
     closed (heap env')).
Proof.
  split; [reflexivity|].
  apply (Init_adds_five_functions _ 0 {[ "version" := VString "1" ]}).
  reflexivity.
Defined.


Lemma call_size cb info (h : gmap nat Obj) c h' :
  call cb info h = Some (c, h') -> size h' = size h + allocations cb.
Proof.
  destruct cb; simpl allocations.
  - rewrite call_Transcribe. intros [= _ <-].
    rewrite map_size_insert_None by apply fresh_unused. lia.
  - rewrite call_IsAvailable. intros [= _ <-]. lia.
  - rewrite call_SupportsOnDevice. intros [= _ <-]. lia.
  - rewrite call_GetSupportedLocales. intros [= _ <-].
    rewrite map_size_insert_None by apply fresh_unused. lia.
  - rewrite call_RequestAuthorization. intros [= _ <-].
    destruct (rejected_heap h) as (Nep & _ & _ & D).
    rewrite <- !size_dom, D. rewrite size_union.
    + rewrite size_union, !size_singleton by (apply disjoint_singleton_l;
        rewrite elem_of_singleton; congruence). lia.
    + apply disjoint_union_r. split; apply disjoint_singleton_r.
      * apply is_fresh.
      * apply not_elem_of_dom, fresh_insert_unused.
Qed.

(** X6: the heap grows by a fixed number of objects per call: one for
    transcribe and for getSupportedLocales, two for requestAuthorization,
    none for isAvailable and supportsOnDevice.  After any sequence of calls
    the heap holds as many objects more as these numbers add up to. *)
Theorem calls_allocate_per_operation
    (trace : list (Callback * CallbackInfo)) (h : gmap nat Obj) :
  exists h',
    calls trace h = Some h' /\
    size h' = size h + sum_list (map (fun ci => allocations ci.1) trace).
Proof.
  revert h. induction trace as [|[cb info] rest IH]; intros h; simpl.
  - exists h. split; [reflexivity|lia].
  - destruct (call_total cb info h) as (c & h1 & E). rewrite E.
    destruct (IH h1) as (h' & T & S). exists h'. split; [exact T|].
    rewrite S, (call_size _ _ _ _ _ E). lia.
Qed.
